(** * SP2FHE: the DGHV-style bit encryption of [main.py]

    A shallow embedding of [DGHVParams], [encrypt] and [decrypt], and the
    properties of the arithmetic that the specification states about them.

    Python integers are unbounded, so they are [Z]; the two bit sizes are
    the non-negative integers for which [2 ** size] is an integer, so they
    are [N].  A Python call either returns a value or raises: [result].
    The calls to [secrets.randbelow] are kept as nodes of a small tree
    ([Rand]) that is read in two ways: with the draws given as an explicit
    input ([run]) and as the list of all equally likely outcomes
    ([outcomes]). *)

From Stdlib Require Import ZArith NArith List Bool Lia QArith.
Import ListNotations.

Local Open Scope Z_scope.

(** ** Results of Python calls *)

(** [ZeroDivisionError] and [ValueError] are the exceptions that the
    operations used by [main.py] can raise.  The last three names are the
    error taxonomy of the specification; no line of [main.py] raises them. *)
Inductive exn : Type :=
| ZeroDivisionError
| ValueError
| InvalidParameters
| InvalidPlaintext
| InvalidKey.

Inductive result (A : Type) : Type :=
| Ok (a : A)
| Raise (e : exn).

Arguments Ok {A} a.
Arguments Raise {A} e.

Definition bind_result {A B : Type} (m : result A) (f : A -> result B)
  : result B :=
  match m with
  | Ok a => f a
  | Raise e => Raise e
  end.

Notation "x <- m ;; k" := (bind_result m (fun x => k))
  (at level 61, m at next level, right associativity).

(** Python's [a % b] on integers: the remainder of floor division, with the
    sign of the divisor, and [ZeroDivisionError] for [b = 0].  [Z.modulo]
    is the remainder of [Z.div], which rounds towards minus infinity. *)
Definition py_mod (a b : Z) : result Z :=
  if b =? 0 then Raise ZeroDivisionError else Ok (a mod b).

(** ** Randomness *)

(** A computation that may call [secrets.randbelow] and then goes on with
    the value drawn. *)
Inductive Rand (A : Type) : Type :=
| Ret (a : A)
| Throw (e : exn)
| RandBelow (n : Z) (k : Z -> Rand A).

Arguments Ret {A} a.
Arguments Throw {A} e.
Arguments RandBelow {A} n k.

Notation "x <~ 'randbelow' n ;; k" := (RandBelow n (fun x => k))
  (at level 61, n at next level, right associativity).

(** [run t draws]: the run of [t] in which the successive calls of
    [randbelow] return the elements of [draws].  [randbelow n] raises
    [ValueError] for [n <= 0] and otherwise returns some [x] with
    [0 <= x < n]; a list that is too short or holds a value out of that
    range describes no run ([None]). *)
Fixpoint run {A : Type} (t : Rand A) (draws : list Z) : option (result A) :=
  match t with
  | Ret a => Some (Ok a)
  | Throw e => Some (Raise e)
  | RandBelow n k =>
      if n <=? 0 then Some (Raise ValueError)
      else match draws with
           | [] => None
           | x :: rest =>
               if (0 <=? x) && (x <? n) then run (k x) rest else None
           end
  end.

(** The integers [0, 1, ..., n-1]. *)
Definition zrange (n : Z) : list Z := map Z.of_nat (seq 0 (Z.to_nat n)).

(** [outcomes t]: one entry per run of [t].  Every call of [randbelow] is
    uniform, so where all branches have as many runs as each other (as in
    [encrypt]) the entries are equally likely. *)
Fixpoint outcomes {A : Type} (t : Rand A) : list (result A) :=
  match t with
  | Ret a => [Ok a]
  | Throw e => [Raise e]
  | RandBelow n k =>
      if n <=? 0 then [Raise ValueError]
      else flat_map (fun x => outcomes (k x)) (zrange n)
  end.

(** ** The program *)

(** [class DGHVParams]: the four attributes set by [__init__]. *)
Record DGHVParams : Type := mkDGHVParams {
  q_size : N;
  r_size : N;
  largest_q : Z;
  largest_r : Z
}.

(** [DGHVParams.__init__(self, q_size, r_size)].  The body has four
    assignments and no check, so the call always returns.  The
    specification calls [r_size] the noise bits and [q_size] the key bits. *)
Definition DGHVParams_init (q_size r_size : N) : result DGHVParams :=
  Ok {| q_size := q_size;
        r_size := r_size;
        largest_q := 2 ^ Z.of_N q_size;
        largest_r := 2 ^ Z.of_N r_size |}.

(** [encrypt(plaintext, public_key, params)]: [r] is drawn before [q]. *)
Definition encrypt (plaintext public_key : Z) (params : DGHVParams) : Rand Z :=
  r <~ randbelow (largest_r params) ;;
  q <~ randbelow (largest_q params) ;;
  Ret (public_key * q + 2 * r + plaintext).

(** [decrypt(ciphertext, private_key, params)]. *)
Definition decrypt (ciphertext private_key : Z) (params : DGHVParams)
  : result Z :=
  m <- py_mod ciphertext private_key ;;
  py_mod m 2.

(** Modelled from the spec: the body of [DGHVPublicKey.__init__] is missing
    in [main.py] (the [def] line is all there is).  Section 4.2 of the
    specification: [generate_public_key] fails with [InvalidParameters] if
    the private key is even or non-positive, draws [q0] below
    [max_multiplier] and [r0] below [max_noise], and computes
    [private_key * q0 + 2 * r0]. *)
Definition generate_public_key (private_key : Z) (params : DGHVParams)
  : Rand Z :=
  if (0 <? private_key) && Z.odd private_key then
    q0 <~ randbelow (largest_q params) ;;
    r0 <~ randbelow (largest_r params) ;;
    Ret (private_key * q0 + 2 * r0)
  else Throw InvalidParameters.

(** ** Vocabulary of the statements *)

(** The parameters that the specification calls valid:
    [1 <= noise_bits < key_bits]. *)
Definition valid_sizes (q_size r_size : N) : Prop :=
  (1 <= r_size)%N /\ (r_size < q_size)%N.

(** [n < p / 2], the quotient taken in the rationals. *)
Definition below_half (n p : Z) : Prop := (inject_Z n < inject_Z p / 2)%Q.

(** Encrypting [m] with the draws [r] and [q] and decrypting the result
    with [p] gives [m] back. *)
Definition round_trip (params : DGHVParams) (p pk m r q : Z) : Prop :=
  exists c, run (encrypt m pk params) [r; q] = Some (Ok c)
            /\ decrypt c p params = Ok m.

(** How many of the outcomes in [l] are a ciphertext whose low bit is [b]. *)
Definition low_bit_count (b : Z) (l : list (result Z)) : nat :=
  length (filter (fun res => match res with
                             | Ok c => c mod 2 =? b
                             | Raise _ => false
                             end) l).

(** Two parameter objects used in the examples: what the constructor
    returns for 4 noise bits and 8 key bits, and for 1 noise bit and 2 key
    bits. *)
Definition params_4_8 : DGHVParams :=
  {| q_size := 8; r_size := 4; largest_q := 256; largest_r := 16 |}.

Definition params_1_2 : DGHVParams :=
  {| q_size := 2; r_size := 1; largest_q := 4; largest_r := 2 |}.

(** ** Basic facts *)

Lemma py_mod_nonzero (a b : Z) : b <> 0 -> py_mod a b = Ok (a mod b).
Proof.
  intros Hb. unfold py_mod.
  destruct (Z.eqb_spec b 0); [contradiction | reflexivity].
Qed.

Lemma py_mod_zero (a : Z) : py_mod a 0 = Raise ZeroDivisionError.
Proof. reflexivity. Qed.

Lemma decrypt_nonzero (c p : Z) (params : DGHVParams) :
  p <> 0 -> decrypt c p params = Ok ((c mod p) mod 2).
Proof.
  intros Hp. unfold decrypt.
  rewrite (py_mod_nonzero c p Hp). reflexivity.
Qed.

Lemma decrypt_zero (c : Z) (params : DGHVParams) :
  decrypt c 0 params = Raise ZeroDivisionError.
Proof. reflexivity. Qed.

Lemma mod_2_bit (a : Z) : a mod 2 = 0 \/ a mod 2 = 1.
Proof. pose proof (Z.mod_pos_bound a 2). lia. Qed.

Lemma below_half_iff (n p : Z) : below_half n p <-> 2 * n < p.
Proof.
  unfold below_half, Qlt. cbn -[Z.mul]. lia.
Qed.

Section Decrypt.

Variables (c p : Z) (params : DGHVParams).

(** C2: for a positive private key, [decrypt] returns
    [(ciphertext mod private_key) mod 2], where the inner residue is the
    mathematical one: it lies in [0, private_key) and differs from the
    ciphertext by a multiple of the key, whatever the sign of the
    ciphertext. *)
Theorem decrypt_mod_key_mod_2 :
  0 < p ->
  decrypt c p params = Ok ((c mod p) mod 2)
  /\ 0 <= c mod p < p
  /\ (p | c - c mod p).
Proof.
  intros Hp. split; [| split].
  - apply decrypt_nonzero. lia.
  - apply Z.mod_pos_bound. exact Hp.
  - exists (c / p).
    pose proof (Z.div_mod c p ltac:(lia)). lia.
Qed.

(** C10: for a nonzero private key of any sign and parity and a
    ciphertext of any sign, [decrypt] returns a value, and the value is 0
    or 1; for the key 0 it raises [ZeroDivisionError]. *)
Theorem decrypt_returns_bit_unless_zero_key :
  (p <> 0 -> exists b, decrypt c p params = Ok b /\ (b = 0 \/ b = 1))
  /\ (p = 0 -> decrypt c p params = Raise ZeroDivisionError).
Proof.
  split.
  - intros Hp. exists ((c mod p) mod 2). split.
    + apply decrypt_nonzero. exact Hp.
    + apply mod_2_bit.
  - intros ->. apply decrypt_zero.
Qed.

(** C6 (amended): [decrypt] has no key validation.  It never fails with
    [InvalidKey]; every nonzero key, even or odd, negative or positive, is
    accepted and gives [(ciphertext mod key) mod 2]; and for a positive odd
    key it does not fail. *)
Theorem decrypt_never_InvalidKey :
  decrypt c p params <> Raise InvalidKey
  /\ (p <> 0 -> decrypt c p params = Ok ((c mod p) mod 2))
  /\ (0 < p -> Z.odd p = true -> exists b, decrypt c p params = Ok b).
Proof.
  split; [| split].
  - destruct (Z.eq_dec p 0) as [-> | Hp].
    + rewrite decrypt_zero. discriminate.
    + rewrite (decrypt_nonzero c p params Hp). discriminate.
  - apply decrypt_nonzero.
  - intros Hp _. exists ((c mod p) mod 2).
    apply decrypt_nonzero. lia.
Qed.

(** C9: [decrypt] is a function of the ciphertext and the key only: for a
    nonzero key, two calls that differ in the [params] argument return
    the same value. *)
Theorem decrypt_ignores_params (params1 params2 : DGHVParams) :
  p <> 0 ->
  exists b, decrypt c p params1 = Ok b /\ decrypt c p params2 = Ok b.
Proof.
  intros Hp. exists ((c mod p) mod 2).
  split; apply decrypt_nonzero; exact Hp.
Qed.

End Decrypt.

Lemma decrypt_mod_key_mod_2_witness :
  decrypt (-7) 5 params_4_8 = Ok (((-7) mod 5) mod 2)
  /\ 0 <= (-7) mod 5 < 5
  /\ (5 | -7 - (-7) mod 5).
Proof. apply (decrypt_mod_key_mod_2 (-7) 5 params_4_8). lia. Defined.

Lemma decrypt_returns_bit_unless_zero_key_witness :
  (exists b, decrypt (-7) (-4) params_4_8 = Ok b /\ (b = 0 \/ b = 1))
  /\ decrypt 9 0 params_4_8 = Raise ZeroDivisionError.
Proof.
  split.
  - apply (decrypt_returns_bit_unless_zero_key (-7) (-4) params_4_8).
    discriminate.
  - apply (decrypt_returns_bit_unless_zero_key 9 0 params_4_8).
    reflexivity.
Defined.

Lemma decrypt_never_InvalidKey_witness :
  decrypt 5 2 params_4_8 = Ok ((5 mod 2) mod 2)
  /\ decrypt 5 (-3) params_4_8 = Ok ((5 mod (-3)) mod 2)
  /\ exists b, decrypt 23 7 params_4_8 = Ok b.
Proof.
  split; [| split].
  - apply (decrypt_never_InvalidKey 5 2 params_4_8). discriminate.
  - apply (decrypt_never_InvalidKey 5 (-3) params_4_8). discriminate.
  - apply (decrypt_never_InvalidKey 23 7 params_4_8); [lia | reflexivity].
Defined.

Lemma decrypt_ignores_params_witness :
  exists b, decrypt 23 7 params_4_8 = Ok b /\ decrypt 23 7 params_1_2 = Ok b.
Proof.
  apply (decrypt_ignores_params 23 7 params_4_8 params_1_2). discriminate.
Defined.

(** C6, as stated, fails: an even key and a negative key are accepted, and
    the call returns a bit. *)
Lemma decrypt_accepts_even_and_negative_key :
  ~ (forall (c p : Z) (params : DGHVParams),
        ~ (0 < p /\ Z.odd p = true) ->
        decrypt c p params = Raise InvalidKey).
Proof.
  intros H.
  assert (E : decrypt 5 2 params_4_8 = Raise InvalidKey).
  { apply H. intros [_ Hodd]. discriminate Hodd. }
  discriminate E.
Qed.

Example decrypt_even_key : decrypt 5 2 params_4_8 = Ok 1.
Proof. reflexivity. Qed.

Example decrypt_negative_key : decrypt 5 (-3) params_4_8 = Ok 1.
Proof. reflexivity. Qed.

(** ** Parameters *)

(** C4 (amended): the constructor of [DGHVParams] has no validation.  For
    every pair of sizes it returns an object whose bounds are
    [2 ^ q_size] and [2 ^ r_size]; it never fails. *)
Theorem DGHVParams_init_always_succeeds (qs rs : N) :
  exists params,
    DGHVParams_init qs rs = Ok params
    /\ q_size params = qs
    /\ r_size params = rs
    /\ largest_q params = 2 ^ Z.of_N qs
    /\ largest_r params = 2 ^ Z.of_N rs.
Proof.
  eexists. split; [reflexivity |]. cbn. repeat split.
Qed.

(** C4, as stated, fails: with zero noise bits the constructor returns an
    object instead of failing with [InvalidParameters]. *)
Lemma DGHVParams_init_accepts_zero_noise_bits :
  ~ (forall qs rs : N,
        (rs = 0 \/ qs = 0 \/ qs <= rs)%N
        <-> DGHVParams_init qs rs = Raise InvalidParameters).
Proof.
  intros H.
  assert (E : DGHVParams_init 8 0 = Raise InvalidParameters).
  { apply H. left. reflexivity. }
  discriminate E.
Qed.

Example DGHVParams_init_4_8 : DGHVParams_init 8 4 = Ok params_4_8.
Proof. reflexivity. Qed.

Example DGHVParams_init_1_2 : DGHVParams_init 2 1 = Ok params_1_2.
Proof. reflexivity. Qed.

Example DGHVParams_init_zero_key_bits :
  DGHVParams_init 0 4
  = Ok {| q_size := 0; r_size := 4; largest_q := 1; largest_r := 16 |}.
Proof. reflexivity. Qed.

Example DGHVParams_init_equal_sizes :
  DGHVParams_init 4 4
  = Ok {| q_size := 4; r_size := 4; largest_q := 16; largest_r := 16 |}.
Proof. reflexivity. Qed.

Lemma DGHVParams_init_inv (qs rs : N) (params : DGHVParams) :
  DGHVParams_init qs rs = Ok params ->
  largest_q params = 2 ^ Z.of_N qs /\ largest_r params = 2 ^ Z.of_N rs.
Proof.
  unfold DGHVParams_init. intros E. injection E as <-. split; reflexivity.
Qed.

Lemma pow2_pos (n : N) : 0 < 2 ^ Z.of_N n.
Proof. apply Z.pow_pos_nonneg; lia. Qed.

(** ** Runs and outcomes *)

Lemma in_zrange (n x : Z) : In x (zrange n) <-> 0 <= x < n.
Proof.
  unfold zrange. rewrite in_map_iff. split.
  - intros [i [<- Hi]]. apply in_seq in Hi. lia.
  - intros Hx. exists (Z.to_nat x). split; [lia |].
    apply in_seq. lia.
Qed.

Lemma randbelow_run {A : Type} (n x : Z) (k : Z -> Rand A) (rest : list Z) :
  0 <= x < n -> run (RandBelow n k) (x :: rest) = run (k x) rest.
Proof.
  intros Hx. cbn.
  destruct (Z.leb_spec n 0); [lia |].
  destruct (Z.leb_spec 0 x); [| lia].
  destruct (Z.ltb_spec x n); [| lia].
  reflexivity.
Qed.

Lemma randbelow_outcomes {A : Type} (n : Z) (k : Z -> Rand A) :
  0 < n ->
  outcomes (RandBelow n k) = flat_map (fun x => outcomes (k x)) (zrange n).
Proof.
  intros Hn. cbn. destruct (Z.leb_spec n 0); [lia | reflexivity].
Qed.

(** The two readings of a [Rand] tree agree: the outcomes listed are those
    of the runs. *)
Lemma outcomes_run {A : Type} (t : Rand A) (res : result A) :
  In res (outcomes t) <-> exists draws, run t draws = Some res.
Proof.
  induction t as [a | e | n k IH]; cbn.
  - split.
    + intros [<- | []]. exists []. reflexivity.
    + intros [_ E]. injection E as <-. left. reflexivity.
  - split.
    + intros [<- | []]. exists []. reflexivity.
    + intros [_ E]. injection E as <-. left. reflexivity.
  - destruct (Z.leb_spec n 0) as [Hn | Hn].
    + split.
      * intros [<- | []]. exists []. reflexivity.
      * intros [_ E]. injection E as <-. left. reflexivity.
    + rewrite in_flat_map. split.
      * intros [x [Hx Hres]]. apply in_zrange in Hx.
        apply IH in Hres. destruct Hres as [rest Hrest].
        exists (x :: rest).
        destruct (Z.leb_spec 0 x); [| lia].
        destruct (Z.ltb_spec x n); [| lia].
        exact Hrest.
      * intros [[| x rest] E]; [discriminate |].
        destruct (Z.leb_spec 0 x); [| discriminate].
        destruct (Z.ltb_spec x n); [| discriminate].
        exists x. split; [apply in_zrange; lia |].
        apply IH. exists rest. exact E.
Qed.

Lemma flat_map_singleton {A B : Type} (f : A -> B) (l : list A) :
  flat_map (fun x => [f x]) l = map f l.
Proof.
  induction l as [| x l IH]; cbn; [reflexivity | now rewrite IH].
Qed.

(** ** Encryption *)

Lemma run_encrypt (m pk : Z) (params : DGHVParams) (r q : Z) :
  0 <= r < largest_r params ->
  0 <= q < largest_q params ->
  run (encrypt m pk params) [r; q] = Some (Ok (pk * q + 2 * r + m)).
Proof.
  intros Hr Hq. unfold encrypt.
  rewrite (randbelow_run _ r _ _ Hr).
  rewrite (randbelow_run _ q _ _ Hq).
  reflexivity.
Qed.

Lemma outcomes_encrypt (m pk : Z) (params : DGHVParams) :
  0 < largest_r params ->
  0 < largest_q params ->
  outcomes (encrypt m pk params)
  = flat_map (fun r => map (fun q => Ok (pk * q + 2 * r + m))
                           (zrange (largest_q params)))
             (zrange (largest_r params)).
Proof.
  intros Hr Hq. unfold encrypt.
  rewrite (randbelow_outcomes _ _ Hr).
  apply flat_map_ext. intros r.
  rewrite (randbelow_outcomes _ _ Hq).
  cbn [outcomes]. apply flat_map_singleton.
Qed.

Section Encrypt.

Variables (qs rs : N) (params : DGHVParams).
Hypothesis Hinit : DGHVParams_init qs rs = Ok params.

Variables (m pk : Z).

(** C3: [encrypt] returns [public_key * q + 2 * r + plaintext] over the
    integers, for the draws [r] below [2 ^ r_size] and [q] below
    [2 ^ q_size]: every such pair of draws is a run with that result, and
    every outcome of [encrypt] is that result for such a pair. *)
Theorem encrypt_formula :
  (forall q r,
      0 <= q < 2 ^ Z.of_N qs ->
      0 <= r < 2 ^ Z.of_N rs ->
      run (encrypt m pk params) [r; q] = Some (Ok (pk * q + 2 * r + m)))
  /\ (forall res,
         In res (outcomes (encrypt m pk params))
         <-> exists q r,
             0 <= q < 2 ^ Z.of_N qs
             /\ 0 <= r < 2 ^ Z.of_N rs
             /\ res = Ok (pk * q + 2 * r + m)).
Proof.
  destruct (DGHVParams_init_inv qs rs params Hinit) as [Hq Hr].
  split.
  - intros q r Hqb Hrb. apply run_encrypt; [rewrite Hr | rewrite Hq]; assumption.
  - intros res.
    rewrite outcomes_encrypt
      by (rewrite ?Hq, ?Hr; apply pow2_pos).
    rewrite in_flat_map, Hq, Hr. split.
    + intros [r [Hrb Hin]]. apply in_map_iff in Hin.
      destruct Hin as [q [<- Hqb]].
      apply in_zrange in Hrb, Hqb. exists q, r. auto.
    + intros [q [r [Hqb [Hrb ->]]]]. exists r. split.
      * apply in_zrange. exact Hrb.
      * apply in_map_iff. exists q. split; [reflexivity |].
        apply in_zrange. exact Hqb.
Qed.

(** C5 (amended): [encrypt] has no plaintext validation.  Whatever the
    plaintext is (0, 1 or any other integer), no outcome is a failure with
    [InvalidPlaintext]: every outcome is a returned ciphertext. *)
Theorem encrypt_never_InvalidPlaintext (res : result Z) :
  In res (outcomes (encrypt m pk params)) ->
  res <> Raise InvalidPlaintext /\ exists c, res = Ok c.
Proof.
  intros Hin.
  destruct (DGHVParams_init_inv qs rs params Hinit) as [Hq Hr].
  rewrite outcomes_encrypt in Hin
    by (rewrite ?Hq, ?Hr; apply pow2_pos).
  apply in_flat_map in Hin. destruct Hin as [r [_ Hin]].
  apply in_map_iff in Hin. destruct Hin as [q [<- _]].
  split; [discriminate | eexists; reflexivity].
Qed.

End Encrypt.

Lemma encrypt_formula_witness :
  (forall q r,
      0 <= q < 2 ^ Z.of_N 8 ->
      0 <= r < 2 ^ Z.of_N 4 ->
      run (encrypt 1 77 params_4_8) [r; q] = Some (Ok (77 * q + 2 * r + 1)))
  /\ (forall res,
         In res (outcomes (encrypt 1 77 params_4_8))
         <-> exists q r,
             0 <= q < 2 ^ Z.of_N 8
             /\ 0 <= r < 2 ^ Z.of_N 4
             /\ res = Ok (77 * q + 2 * r + 1)).
Proof. apply (encrypt_formula 8 4 params_4_8). reflexivity. Defined.

Lemma encrypt_never_InvalidPlaintext_witness :
  Ok 17 <> Raise InvalidPlaintext /\ exists c, Ok 17 = Ok c.
Proof.
  apply (encrypt_never_InvalidPlaintext 2 1 params_1_2 eq_refl 2 5 (Ok 17)).
  vm_compute. tauto.
Defined.

Example encrypt_run_4_8 :
  run (encrypt 1 77 params_4_8) [3; 5] = Some (Ok 392).
Proof. reflexivity. Qed.

(** C5, as stated, fails: the plaintext 2 is encrypted like any other
    integer. *)
Lemma encrypt_accepts_plaintext_2 :
  ~ (forall (m pk : Z) (params : DGHVParams) (draws : list Z)
            (res : result Z),
        m <> 0 -> m <> 1 ->
        run (encrypt m pk params) draws = Some res ->
        res = Raise InvalidPlaintext).
Proof.
  intros H.
  assert (E : Ok 43 = Raise InvalidPlaintext).
  { apply (H 2 7 params_4_8 [3; 5] (Ok 43)); [lia | lia | reflexivity]. }
  discriminate E.
Qed.

(** ** Round trip *)

(** The arithmetic of decryption: a ciphertext is a multiple of the key
    plus the noise plus the bit, and reduction modulo a key larger than
    noise plus bit leaves exactly that. *)
Lemma mod_key_of_ciphertext (p q0 r0 m q r : Z) :
  0 <= 2 * r0 * q + 2 * r + m < p ->
  ((p * q0 + 2 * r0) * q + 2 * r + m) mod p = 2 * r0 * q + 2 * r + m.
Proof.
  intros Hsmall.
  replace ((p * q0 + 2 * r0) * q + 2 * r + m)
    with ((2 * r0 * q + 2 * r + m) + (q0 * q) * p) by ring.
  rewrite Z.mod_add by lia.
  apply Z.mod_small. exact Hsmall.
Qed.

Lemma low_bit_of_noisy_bit (r0 m q r : Z) :
  m = 0 \/ m = 1 -> (2 * r0 * q + 2 * r + m) mod 2 = m.
Proof.
  intros Hm.
  replace (2 * r0 * q + 2 * r + m) with (m + (r0 * q + r) * 2) by ring.
  rewrite Z.mod_add by lia.
  destruct Hm as [-> | ->]; reflexivity.
Qed.

Lemma round_trip_small_noise (params : DGHVParams) (p q0 r0 m q r : Z) :
  0 <= r < largest_r params ->
  0 <= q < largest_q params ->
  m = 0 \/ m = 1 ->
  1 < p ->
  0 <= r0 ->
  2 * (2 * r0 * q + 2 * r) < p ->
  round_trip params p (p * q0 + 2 * r0) m r q.
Proof.
  intros Hr Hq Hm Hp Hr0 Hnoise.
  exists ((p * q0 + 2 * r0) * q + 2 * r + m). split.
  - apply run_encrypt; assumption.
  - rewrite decrypt_nonzero by lia.
    rewrite mod_key_of_ciphertext by nia.
    rewrite low_bit_of_noisy_bit by exact Hm.
    reflexivity.
Qed.

(** C1 (amended): for valid parameters, an odd private key [p] of at least
    3, a public key [p * q0 + 2 * r0] with [q0] below [2 ^ key_bits] and
    [r0] below [2 ^ noise_bits], a bit [m] and encryption draws [q] and [r]
    in the same ranges: if the noise [2 * r0 * q + 2 * r] is strictly below
    [p / 2], then decrypting the encryption of [m] gives [m]. *)
Theorem round_trip_under_noise_bound
  (qs rs : N) (params : DGHVParams) (p q0 r0 m q r : Z) :
  DGHVParams_init qs rs = Ok params ->
  valid_sizes qs rs ->
  1 < p -> Z.odd p = true ->
  0 <= q0 < 2 ^ Z.of_N qs ->
  0 <= r0 < 2 ^ Z.of_N rs ->
  m = 0 \/ m = 1 ->
  0 <= q < 2 ^ Z.of_N qs ->
  0 <= r < 2 ^ Z.of_N rs ->
  below_half (2 * r0 * q + 2 * r) p ->
  round_trip params p (p * q0 + 2 * r0) m r q.
Proof.
  intros Hinit _ Hp _ _ Hr0 Hm Hq Hr Hnoise.
  destruct (DGHVParams_init_inv qs rs params Hinit) as [Eq Er].
  apply below_half_iff in Hnoise.
  apply round_trip_small_noise; try assumption; lia.
Qed.

Lemma round_trip_under_noise_bound_witness :
  round_trip params_4_8 1001 (1001 * 200 + 2 * 3) 1 15 40.
Proof.
  apply (round_trip_under_noise_bound 8 4 params_4_8 1001 200 3 1 40 15);
    try reflexivity; try (unfold valid_sizes; lia); cbn; lia.
Defined.

(** C1, as stated, fails at the odd positive key 1: the noise 0 is below
    one half, but every integer is 0 modulo 1, so the bit 1 decrypts
    to 0. *)
Lemma round_trip_fails_for_key_1 :
  ~ (forall (qs rs : N) (params : DGHVParams) (p q0 r0 m q r : Z),
        DGHVParams_init qs rs = Ok params ->
        valid_sizes qs rs ->
        0 < p -> Z.odd p = true ->
        0 <= q0 < 2 ^ Z.of_N qs ->
        0 <= r0 < 2 ^ Z.of_N rs ->
        m = 0 \/ m = 1 ->
        0 <= q < 2 ^ Z.of_N qs ->
        0 <= r < 2 ^ Z.of_N rs ->
        below_half (2 * r0 * q + 2 * r) p ->
        round_trip params p (p * q0 + 2 * r0) m r q).
Proof.
  intros H.
  assert (RT : round_trip params_1_2 1 (1 * 0 + 2 * 0) 1 0 0).
  { apply (H 2%N 1%N params_1_2 1 0 0 1 0 0);
      try reflexivity; try (unfold valid_sizes; lia); cbn; lia. }
  destruct RT as [c [Hrun Hdec]].
  cbn in Hrun. injection Hrun as <-.
  discriminate Hdec.
Qed.

Example encrypt_bit_1_key_1 :
  run (encrypt 1 0 params_1_2) [0; 0] = Some (Ok 1).
Proof. reflexivity. Qed.

Example decrypt_bit_1_key_1 : decrypt 1 1 params_1_2 = Ok 0.
Proof. reflexivity. Qed.

(** ** Public key generation *)

(** C7: for an odd positive private key and draws [q0] below
    [2 ^ q_size] and [r0] below [2 ^ r_size], public key generation returns
    [private_key * q0 + 2 * r0]. *)
Theorem generate_public_key_formula
  (qs rs : N) (params : DGHVParams) (p q0 r0 : Z) :
  DGHVParams_init qs rs = Ok params ->
  0 < p -> Z.odd p = true ->
  0 <= q0 < 2 ^ Z.of_N qs ->
  0 <= r0 < 2 ^ Z.of_N rs ->
  run (generate_public_key p params) [q0; r0] = Some (Ok (p * q0 + 2 * r0)).
Proof.
  intros Hinit Hp Hodd Hq0 Hr0.
  destruct (DGHVParams_init_inv qs rs params Hinit) as [Eq Er].
  unfold generate_public_key.
  rewrite Hodd. destruct (Z.ltb_spec 0 p); [| lia]. cbn [andb].
  rewrite randbelow_run by (rewrite Eq; exact Hq0).
  rewrite randbelow_run by (rewrite Er; exact Hr0).
  reflexivity.
Qed.

Lemma generate_public_key_formula_witness :
  run (generate_public_key 1001 params_4_8) [200; 3]
  = Some (Ok (1001 * 200 + 2 * 3)).
Proof.
  apply (generate_public_key_formula 8 4 params_4_8 1001 200 3);
    try reflexivity; cbn; lia.
Defined.

(** ** The low bit of a ciphertext *)

Lemma low_bit_count_app (b : Z) (l1 l2 : list (result Z)) :
  low_bit_count b (l1 ++ l2) = (low_bit_count b l1 + low_bit_count b l2)%nat.
Proof.
  unfold low_bit_count. rewrite filter_app. apply length_app.
Qed.

Lemma low_bit_count_flat_map {A : Type} (b : Z) (f g : A -> list (result Z))
      (l : list A) :
  (forall x, In x l -> low_bit_count b (f x) = low_bit_count b (g x)) ->
  low_bit_count b (flat_map f l) = low_bit_count b (flat_map g l).
Proof.
  induction l as [| x l IH]; intros H; [reflexivity |].
  cbn [flat_map]. rewrite !low_bit_count_app.
  rewrite (H x (or_introl eq_refl)).
  rewrite IH by (intros y Hy; apply H; right; exact Hy).
  reflexivity.
Qed.

(** Among two consecutive multipliers, an odd public key gives each low
    bit once. *)
Lemma low_bit_count_pair (b pk t x : Z) :
  Z.odd pk = true ->
  low_bit_count b [Ok (pk * x + t); Ok (pk * (x + 1) + t)]
  = if (b =? 0) || (b =? 1) then 1%nat else 0%nat.
Proof.
  intros Hodd. apply Z.odd_spec in Hodd. destruct Hodd as [j ->].
  unfold low_bit_count. cbn [filter].
  replace ((2 * j + 1) * x + t) with ((x + t) + (j * x) * 2) by ring.
  replace ((2 * j + 1) * (x + 1) + t)
    with ((x + t + 1) + (j * x + j) * 2) by ring.
  rewrite !Z.mod_add by lia.
  pose proof (Z.mod_pos_bound (x + t) 2 ltac:(lia)) as B0.
  assert (B1 : (x + t + 1) mod 2 = 1 - (x + t) mod 2).
  { rewrite Z.add_mod by lia.
    destruct (mod_2_bit (x + t)) as [-> | ->]; reflexivity. }
  rewrite B1.
  destruct (Z.eqb_spec b 0) as [-> | N0];
    [| destruct (Z.eqb_spec b 1) as [-> | N1] ]; cbn [orb].
  - destruct (mod_2_bit (x + t)) as [-> | ->]; reflexivity.
  - destruct (mod_2_bit (x + t)) as [-> | ->]; reflexivity.
  - destruct (Z.eqb_spec ((x + t) mod 2) b); [lia |].
    destruct (Z.eqb_spec (1 - (x + t) mod 2) b); [lia |].
    reflexivity.
Qed.

(** Over an even number of multipliers, an odd public key gives each low
    bit in half of the cases, whatever is added to the product. *)
Lemma low_bit_count_multipliers (b pk t : Z) (h : nat) :
  Z.odd pk = true ->
  low_bit_count b (map (fun q => Ok (pk * q + t))
                       (map Z.of_nat (seq 0 (2 * h))))
  = if (b =? 0) || (b =? 1) then h else 0%nat.
Proof.
  intros Hodd. induction h as [| h IH].
  - cbn. destruct ((b =? 0) || (b =? 1)); reflexivity.
  - replace (2 * S h)%nat with (2 * h + 2)%nat by lia.
    rewrite seq_app, !map_app, low_bit_count_app, IH.
    cbn [seq map Nat.add].
    replace (Z.of_nat (S (2 * h))) with (Z.of_nat (2 * h) + 1) by lia.
    rewrite (low_bit_count_pair b pk t (Z.of_nat (2 * h)) Hodd).
    destruct ((b =? 0) || (b =? 1)); lia.
Qed.

Lemma zrange_pow2 (n : N) :
  (1 <= n)%N ->
  zrange (2 ^ Z.of_N n)
  = map Z.of_nat (seq 0 (2 * Z.to_nat (2 ^ (Z.of_N n - 1)))).
Proof.
  intros Hn. unfold zrange. f_equal. f_equal.
  replace (Z.of_N n) with (1 + (Z.of_N n - 1)) at 1 by lia.
  rewrite Z.pow_add_r by lia.
  pose proof (Z.pow_nonneg 2 (Z.of_N n - 1) ltac:(lia)).
  change (2 ^ 1) with 2. lia.
Qed.

(** C8 (amended): for valid parameters and an odd public key, each value
    of the low bit [c mod 2] occurs among the outcomes of encrypting 0 as
    often as among the outcomes of encrypting 1. *)
Theorem low_bit_hides_plaintext_odd_public_key
  (qs rs : N) (params : DGHVParams) (pk b : Z) :
  DGHVParams_init qs rs = Ok params ->
  valid_sizes qs rs ->
  Z.odd pk = true ->
  low_bit_count b (outcomes (encrypt 0 pk params))
  = low_bit_count b (outcomes (encrypt 1 pk params)).
Proof.
  intros Hinit [Hrs Hqs] Hodd.
  destruct (DGHVParams_init_inv qs rs params Hinit) as [Eq Er].
  rewrite !outcomes_encrypt by (rewrite ?Eq, ?Er; apply pow2_pos).
  apply low_bit_count_flat_map. intros r _.
  rewrite Eq, zrange_pow2 by lia.
  rewrite (map_ext (fun q => Ok (pk * q + 2 * r + 0))
                   (fun q => Ok (pk * q + (2 * r + 0))))
    by (intros q; f_equal; ring).
  rewrite (map_ext (fun q => Ok (pk * q + 2 * r + 1))
                   (fun q => Ok (pk * q + (2 * r + 1))))
    by (intros q; f_equal; ring).
  rewrite !low_bit_count_multipliers by exact Hodd.
  reflexivity.
Qed.

Lemma low_bit_hides_plaintext_odd_public_key_witness :
  low_bit_count 1 (outcomes (encrypt 0 7 params_1_2))
  = low_bit_count 1 (outcomes (encrypt 1 7 params_1_2)).
Proof.
  apply (low_bit_hides_plaintext_odd_public_key 2 1 params_1_2 7 1);
    try reflexivity; unfold valid_sizes; lia.
Defined.

(** C8, as stated, fails: under an even public key the low bit of every
    ciphertext is the plaintext bit. *)
Lemma low_bit_reveals_plaintext_even_public_key :
  ~ (forall (qs rs : N) (params : DGHVParams) (pk b : Z),
        DGHVParams_init qs rs = Ok params ->
        valid_sizes qs rs ->
        low_bit_count b (outcomes (encrypt 0 pk params))
        = low_bit_count b (outcomes (encrypt 1 pk params))).
Proof.
  intros H.
  assert (E : low_bit_count 0 (outcomes (encrypt 0 2 params_1_2))
              = low_bit_count 0 (outcomes (encrypt 1 2 params_1_2))).
  { apply (H 2%N 1%N); [reflexivity | unfold valid_sizes; lia]. }
  vm_compute in E. discriminate E.
Qed.

Example low_bit_even_public_key_bit_0 :
  low_bit_count 0 (outcomes (encrypt 0 2 params_1_2)) = 8%nat.
Proof. reflexivity. Qed.

Example low_bit_even_public_key_bit_1 :
  low_bit_count 0 (outcomes (encrypt 1 2 params_1_2)) = 0%nat.
Proof. reflexivity. Qed.

Example low_bit_odd_public_key_bit_0 :
  low_bit_count 0 (outcomes (encrypt 0 7 params_1_2)) = 4%nat.
Proof. reflexivity. Qed.

Example low_bit_odd_public_key_bit_1 :
  low_bit_count 0 (outcomes (encrypt 1 7 params_1_2)) = 4%nat.
Proof. reflexivity. Qed.

(** * Further properties of the code *)

(** ** Decryption as a function of the ciphertext and the key *)

(** X1: adding a multiple of the key to a ciphertext does not change what
    [decrypt] returns (for the key 0 both calls raise). *)
Theorem decrypt_add_key_multiple (c k p : Z) (params : DGHVParams) :
  decrypt (c + k * p) p params = decrypt c p params.
Proof.
  destruct (Z.eq_dec p 0) as [-> | Hp].
  - rewrite !decrypt_zero. reflexivity.
  - rewrite !decrypt_nonzero by exact Hp.
    rewrite Z.mod_add by exact Hp. reflexivity.
Qed.

(** X2: an even nonzero key, of either sign, makes [decrypt] return the low bit
    of the ciphertext itself. *)
Theorem decrypt_even_key_low_bit (c p : Z) (params : DGHVParams) :
  p <> 0 -> Z.even p = true ->
  decrypt c p params = Ok (c mod 2).
Proof.
  intros Hp Heven. rewrite decrypt_nonzero by exact Hp. f_equal.
  apply Z.even_spec in Heven. destruct Heven as [j Hj].
  pose proof (Z.div_mod c p Hp) as E.
  replace (c mod p) with (c + (- j * (c / p)) * 2) by (subst p; lia).
  apply Z.mod_add. lia.
Qed.

Lemma decrypt_even_key_low_bit_witness :
  decrypt 7 (-4) params_4_8 = Ok (7 mod 2).
Proof.
  apply (decrypt_even_key_low_bit 7 (-4) params_4_8);
    [discriminate | reflexivity].
Defined.

Lemma sub_odd_mod_2 (x p : Z) :
  Z.odd p = true -> (x - p) mod 2 = 1 - x mod 2.
Proof.
  intros Hodd. apply Z.odd_spec in Hodd. destruct Hodd as [j ->].
  replace (x - (2 * j + 1)) with ((x + 1) + (- j - 1) * 2) by ring.
  rewrite Z.mod_add by lia.
  rewrite Z.add_mod by lia.
  destruct (mod_2_bit x) as [-> | ->]; reflexivity.
Qed.

(** X3: negating a positive odd key inverts the decrypted bit, except for the
    ciphertexts that the key divides, which decrypt to 0 under both. *)
Theorem decrypt_negated_odd_key (c p : Z) (params : DGHVParams) :
  0 < p -> Z.odd p = true ->
  exists b,
    decrypt c p params = Ok b
    /\ decrypt c (- p) params = Ok (if c mod p =? 0 then b else 1 - b).
Proof.
  intros Hp Hodd. exists ((c mod p) mod 2). split.
  - apply decrypt_nonzero. lia.
  - rewrite decrypt_nonzero by lia. f_equal.
    destruct (Z.eqb_spec (c mod p) 0) as [E | NE].
    + rewrite (Z.mod_opp_r_z c p ltac:(lia) E), E. reflexivity.
    + rewrite (Z.mod_opp_r_nz c p ltac:(lia) NE).
      apply sub_odd_mod_2. exact Hodd.
Qed.

Lemma decrypt_negated_odd_key_witness :
  exists b,
    decrypt 23 7 params_4_8 = Ok b
    /\ decrypt 23 (- 7) params_4_8 = Ok (if 23 mod 7 =? 0 then b else 1 - b).
Proof.
  apply (decrypt_negated_odd_key 23 7 params_4_8); [lia | reflexivity].
Defined.

(** ** The exact reach of the round trip *)

(** X4: the round trip needs no more than noise plus bit below the key: the
    public key's noise, multiplied by [q], plus the fresh noise plus the
    bit may come as close to the key as [p - 1]. *)
Theorem round_trip_noise_below_key
  (params : DGHVParams) (p q0 r0 m q r : Z) :
  0 <= r < largest_r params ->
  0 <= q < largest_q params ->
  m = 0 \/ m = 1 ->
  0 <= 2 * r0 * q + 2 * r + m < p ->
  round_trip params p (p * q0 + 2 * r0) m r q.
Proof.
  intros Hr Hq Hm Hsmall.
  exists ((p * q0 + 2 * r0) * q + 2 * r + m). split.
  - apply run_encrypt; assumption.
  - rewrite decrypt_nonzero by lia.
    rewrite mod_key_of_ciphertext by exact Hsmall.
    rewrite low_bit_of_noisy_bit by exact Hm.
    reflexivity.
Qed.

Lemma round_trip_noise_below_key_witness :
  round_trip params_4_8 5 (5 * 9 + 2 * 1) 0 1 1.
Proof.
  apply (round_trip_noise_below_key params_4_8 5 9 1 0 1 1); cbn; lia.
Defined.

(** X5: just beyond that, decryption is wrong: when noise plus bit lies in
    [p, 2p) for an odd key [p], [decrypt] returns the opposite bit. *)
Theorem decrypt_flips_bit_beyond_key
  (params : DGHVParams) (p q0 r0 m q r : Z) :
  0 <= r < largest_r params ->
  0 <= q < largest_q params ->
  m = 0 \/ m = 1 ->
  Z.odd p = true ->
  p <= 2 * r0 * q + 2 * r + m < 2 * p ->
  exists c,
    run (encrypt m (p * q0 + 2 * r0) params) [r; q] = Some (Ok c)
    /\ decrypt c p params = Ok (1 - m).
Proof.
  intros Hr Hq Hm Hodd Hbig.
  exists ((p * q0 + 2 * r0) * q + 2 * r + m). split.
  - apply run_encrypt; assumption.
  - rewrite decrypt_nonzero by lia. f_equal.
    replace ((p * q0 + 2 * r0) * q + 2 * r + m)
      with ((2 * r0 * q + 2 * r + m - p) + (q0 * q + 1) * p) by ring.
    rewrite Z.mod_add by lia.
    rewrite (Z.mod_small (2 * r0 * q + 2 * r + m - p) p) by lia.
    rewrite sub_odd_mod_2 by exact Hodd.
    rewrite low_bit_of_noisy_bit by exact Hm.
    reflexivity.
Qed.

Lemma decrypt_flips_bit_beyond_key_witness :
  exists c,
    run (encrypt 1 (5 * 9 + 2 * 1) params_4_8) [2; 1] = Some (Ok c)
    /\ decrypt c 5 params_4_8 = Ok (1 - 1).
Proof.
  apply (decrypt_flips_bit_beyond_key params_4_8 5 9 1 1 1 2);
    try reflexivity; cbn; lia.
Defined.

(** ** Every ciphertext that [encrypt] can return *)

Lemma in_outcomes_encrypt
  (qs rs : N) (params : DGHVParams) (m pk : Z) (res : result Z) :
  DGHVParams_init qs rs = Ok params ->
  In res (outcomes (encrypt m pk params)) ->
  exists r q,
    0 <= r < 2 ^ Z.of_N rs
    /\ 0 <= q < 2 ^ Z.of_N qs
    /\ res = Ok (pk * q + 2 * r + m).
Proof.
  intros Hinit Hin.
  destruct (DGHVParams_init_inv qs rs params Hinit) as [Eq Er].
  rewrite outcomes_encrypt in Hin by (rewrite ?Eq, ?Er; apply pow2_pos).
  apply in_flat_map in Hin. destruct Hin as [r [Hr Hin]].
  apply in_map_iff in Hin. destruct Hin as [q [<- Hq]].
  apply in_zrange in Hr, Hq. rewrite Er in Hr. rewrite Eq in Hq.
  exists r, q. auto.
Qed.

(** X6: a key of at least [2 ^ (q_size + r_size + 1)] decrypts every
    ciphertext correctly: whatever the public key's draws [q0] and
    [r0 < 2 ^ r_size] were and whatever [encrypt] draws, the bit comes
    back. *)
Theorem decrypt_correct_for_large_key
  (qs rs : N) (params : DGHVParams) (p q0 r0 m : Z) (res : result Z) :
  DGHVParams_init qs rs = Ok params ->
  2 ^ (Z.of_N qs + Z.of_N rs + 1) <= p ->
  0 <= r0 < 2 ^ Z.of_N rs ->
  m = 0 \/ m = 1 ->
  In res (outcomes (encrypt m (p * q0 + 2 * r0) params)) ->
  exists c, res = Ok c /\ decrypt c p params = Ok m.
Proof.
  intros Hinit Hp Hr0 Hm Hin.
  destruct (in_outcomes_encrypt _ _ _ _ _ _ Hinit Hin)
    as [r [q [Hr [Hq ->]]]].
  eexists. split; [reflexivity |].
  rewrite Z.pow_add_r, Z.pow_add_r in Hp by lia.
  change (2 ^ 1) with 2 in Hp.
  assert (Hprod : r0 * q <= (2 ^ Z.of_N rs - 1) * (2 ^ Z.of_N qs - 1))
    by (apply Z.mul_le_mono_nonneg; lia).
  assert (Hpos : 0 <= r0 * q) by (apply Z.mul_nonneg_nonneg; lia).
  assert (Hsmall : 0 <= 2 * r0 * q + 2 * r + m < p) by nia.
  rewrite decrypt_nonzero by lia.
  rewrite mod_key_of_ciphertext by exact Hsmall.
  rewrite low_bit_of_noisy_bit by exact Hm.
  reflexivity.
Qed.

Lemma decrypt_correct_for_large_key_witness :
  exists c, Ok 60 = Ok c /\ decrypt c 17 params_1_2 = Ok 1.
Proof.
  apply (decrypt_correct_for_large_key 2 1 params_1_2 17 1 1 1 (Ok 60));
    try reflexivity; try (cbn; lia).
  vm_compute. tauto.
Defined.

(** X7: under an even public key the low bit of every ciphertext is the low
    bit of the plaintext: the noise term [2 * r] never reaches it. *)
Theorem low_bit_is_plaintext_even_public_key
  (qs rs : N) (params : DGHVParams) (m pk : Z) (res : result Z) :
  DGHVParams_init qs rs = Ok params ->
  Z.even pk = true ->
  In res (outcomes (encrypt m pk params)) ->
  exists c, res = Ok c /\ c mod 2 = m mod 2.
Proof.
  intros Hinit Heven Hin.
  destruct (in_outcomes_encrypt _ _ _ _ _ _ Hinit Hin)
    as [r [q [_ [_ ->]]]].
  eexists. split; [reflexivity |].
  apply Z.even_spec in Heven. destruct Heven as [j ->].
  replace (2 * j * q + 2 * r + m) with (m + (j * q + r) * 2) by ring.
  apply Z.mod_add. lia.
Qed.

Lemma low_bit_is_plaintext_even_public_key_witness :
  exists c, Ok 15 = Ok c /\ c mod 2 = 1 mod 2.
Proof.
  apply (low_bit_is_plaintext_even_public_key 2 1 params_1_2 1 6 (Ok 15));
    try reflexivity.
  vm_compute. tauto.
Defined.

(** X8: a public key of at least [2 ^ (r_size + 1)] decrypts by itself: used
    in the place of the private key, it gives the plaintext bit of every
    ciphertext made with it. *)
Theorem public_key_decrypts
  (qs rs : N) (params : DGHVParams) (m pk : Z) (res : result Z) :
  DGHVParams_init qs rs = Ok params ->
  2 ^ (Z.of_N rs + 1) <= pk ->
  m = 0 \/ m = 1 ->
  In res (outcomes (encrypt m pk params)) ->
  exists c, res = Ok c /\ decrypt c pk params = Ok m.
Proof.
  intros Hinit Hpk Hm Hin.
  destruct (in_outcomes_encrypt _ _ _ _ _ _ Hinit Hin)
    as [r [q [Hr [_ ->]]]].
  eexists. split; [reflexivity |].
  rewrite Z.pow_add_r in Hpk by lia. change (2 ^ 1) with 2 in Hpk.
  rewrite decrypt_nonzero by lia. f_equal.
  replace (pk * q + 2 * r + m) with ((2 * r + m) + q * pk) by ring.
  rewrite Z.mod_add by lia.
  rewrite (Z.mod_small (2 * r + m) pk) by lia.
  replace (2 * r + m) with (m + r * 2) by ring.
  rewrite Z.mod_add by lia.
  destruct Hm as [-> | ->]; reflexivity.
Qed.

Lemma public_key_decrypts_witness :
  exists c, Ok 24 = Ok c /\ decrypt c 7 params_1_2 = Ok 1.
Proof.
  apply (public_key_decrypts 2 1 params_1_2 1 7 (Ok 24));
    try reflexivity; try (cbn; lia).
  vm_compute. tauto.
Defined.

(** X9: under a non-negative public key a ciphertext lies between the
    plaintext and
    [public_key * (2 ^ q_size - 1) + 2 * (2 ^ r_size - 1) + plaintext]. *)
Theorem ciphertext_bounds
  (qs rs : N) (params : DGHVParams) (m pk : Z) (res : result Z) :
  DGHVParams_init qs rs = Ok params ->
  0 <= pk ->
  In res (outcomes (encrypt m pk params)) ->
  exists c,
    res = Ok c
    /\ m <= c <= pk * (2 ^ Z.of_N qs - 1) + 2 * (2 ^ Z.of_N rs - 1) + m.
Proof.
  intros Hinit Hpk Hin.
  destruct (in_outcomes_encrypt _ _ _ _ _ _ Hinit Hin)
    as [r [q [Hr [Hq ->]]]].
  eexists. split; [reflexivity |].
  assert (0 <= pk * q) by (apply Z.mul_nonneg_nonneg; lia).
  assert (pk * q <= pk * (2 ^ Z.of_N qs - 1))
    by (apply Z.mul_le_mono_nonneg_l; lia).
  lia.
Qed.

Lemma ciphertext_bounds_witness :
  exists c,
    Ok 24 = Ok c
    /\ 1 <= c <= 7 * (2 ^ Z.of_N 2 - 1) + 2 * (2 ^ Z.of_N 1 - 1) + 1.
Proof.
  apply (ciphertext_bounds 2 1 params_1_2 1 7 (Ok 24));
    try reflexivity; try lia.
  vm_compute. tauto.
Defined.

Lemma run_encrypt_inv (m pk : Z) (params : DGHVParams) (r q c : Z) :
  run (encrypt m pk params) [r; q] = Some (Ok c) ->
  0 <= r < largest_r params
  /\ 0 <= q < largest_q params
  /\ c = pk * q + 2 * r + m.
Proof.
  unfold encrypt. cbn -[Z.mul Z.add].
  destruct (Z.leb_spec (largest_r params) 0); [discriminate |].
  destruct (Z.leb_spec 0 r); [| discriminate].
  destruct (Z.ltb_spec r (largest_r params)); [| discriminate].
  cbn [andb].
  destruct (Z.leb_spec (largest_q params) 0); [discriminate |].
  destruct (Z.leb_spec 0 q); [| discriminate].
  destruct (Z.ltb_spec q (largest_q params)); [| discriminate].
  cbn [andb]. intros E.
  assert (Ec : c = pk * q + 2 * r + m) by congruence.
  lia.
Qed.

(** X10: with a public key of at least [2 ^ (r_size + 1)], a ciphertext fixes
    the draws and the bit it was made from: two runs of [encrypt] that
    return the same integer had the same [q], the same [r] and the same
    plaintext bit. *)
Theorem ciphertext_determines_draws
  (qs rs : N) (params : DGHVParams) (pk m m' r q r' q' c : Z) :
  DGHVParams_init qs rs = Ok params ->
  2 ^ (Z.of_N rs + 1) <= pk ->
  m = 0 \/ m = 1 ->
  m' = 0 \/ m' = 1 ->
  run (encrypt m pk params) [r; q] = Some (Ok c) ->
  run (encrypt m' pk params) [r'; q'] = Some (Ok c) ->
  q = q' /\ r = r' /\ m = m'.
Proof.
  intros Hinit Hpk Hm Hm' Hrun Hrun'.
  destruct (DGHVParams_init_inv qs rs params Hinit) as [Eq Er].
  rewrite Z.pow_add_r in Hpk by lia. change (2 ^ 1) with 2 in Hpk.
  destruct (run_encrypt_inv _ _ _ _ _ _ Hrun) as [Hr [Hq Hc]].
  destruct (run_encrypt_inv _ _ _ _ _ _ Hrun') as [Hr' [Hq' Hc']].
  rewrite Er in Hr, Hr'.
  destruct (Z.div_mod_unique pk q q' (2 * r + m) (2 * r' + m'))
    as [Eqq Erem]; [left; lia | left; lia | lia |].
  split; [exact Eqq | lia].
Qed.

Lemma ciphertext_determines_draws_witness :
  3 = 3 /\ 1 = 1 /\ 1 = 1.
Proof.
  apply (ciphertext_determines_draws 2 1 params_1_2 7 1 1 1 3 1 3 24);
    try reflexivity; cbn; lia.
Defined.

(** ** Sums and products of ciphertexts *)

Section Homomorphic.

Variables (params : DGHVParams) (p q0 r0 : Z).
Variables (m1 m2 q1 r1 q2 r2 : Z).

Hypothesis Hr1 : 0 <= r1 < largest_r params.
Hypothesis Hq1 : 0 <= q1 < largest_q params.
Hypothesis Hr2 : 0 <= r2 < largest_r params.
Hypothesis Hq2 : 0 <= q2 < largest_q params.
Hypothesis Hm1 : m1 = 0 \/ m1 = 1.
Hypothesis Hm2 : m2 = 0 \/ m2 = 1.

(** X11: the sum of two ciphertexts made under the same public key decrypts to
    the exclusive or of the two bits, as long as the two noise-plus-bit
    terms together stay below the key. *)
Theorem decrypt_sum_of_ciphertexts :
  0 <= (2 * r0 * q1 + 2 * r1 + m1) + (2 * r0 * q2 + 2 * r2 + m2) < p ->
  exists c1 c2,
    run (encrypt m1 (p * q0 + 2 * r0) params) [r1; q1] = Some (Ok c1)
    /\ run (encrypt m2 (p * q0 + 2 * r0) params) [r2; q2] = Some (Ok c2)
    /\ decrypt (c1 + c2) p params = Ok ((m1 + m2) mod 2).
Proof.
  intros Hsmall.
  exists ((p * q0 + 2 * r0) * q1 + 2 * r1 + m1),
         ((p * q0 + 2 * r0) * q2 + 2 * r2 + m2).
  split; [apply run_encrypt; assumption |].
  split; [apply run_encrypt; assumption |].
  rewrite decrypt_nonzero by lia. f_equal.
  replace ((p * q0 + 2 * r0) * q1 + 2 * r1 + m1
           + ((p * q0 + 2 * r0) * q2 + 2 * r2 + m2))
    with ((2 * r0 * q1 + 2 * r1 + m1) + (2 * r0 * q2 + 2 * r2 + m2)
          + (q0 * q1 + q0 * q2) * p) by ring.
  rewrite Z.mod_add by lia.
  rewrite (Z.mod_small _ p) by exact Hsmall.
  replace ((2 * r0 * q1 + 2 * r1 + m1) + (2 * r0 * q2 + 2 * r2 + m2))
    with ((m1 + m2) + (r0 * q1 + r1 + r0 * q2 + r2) * 2) by ring.
  apply Z.mod_add. lia.
Qed.

(** X12: the product of two ciphertexts made under the same public key decrypts
    to the product (the conjunction) of the two bits, as long as the
    product of the two noise-plus-bit terms stays below the key. *)
Theorem decrypt_product_of_ciphertexts :
  0 <= (2 * r0 * q1 + 2 * r1 + m1) * (2 * r0 * q2 + 2 * r2 + m2) < p ->
  exists c1 c2,
    run (encrypt m1 (p * q0 + 2 * r0) params) [r1; q1] = Some (Ok c1)
    /\ run (encrypt m2 (p * q0 + 2 * r0) params) [r2; q2] = Some (Ok c2)
    /\ decrypt (c1 * c2) p params = Ok (m1 * m2).
Proof.
  intros Hsmall.
  exists ((p * q0 + 2 * r0) * q1 + 2 * r1 + m1),
         ((p * q0 + 2 * r0) * q2 + 2 * r2 + m2).
  split; [apply run_encrypt; assumption |].
  split; [apply run_encrypt; assumption |].
  rewrite decrypt_nonzero by lia. f_equal.
  set (e1 := 2 * r0 * q1 + 2 * r1 + m1) in *.
  set (e2 := 2 * r0 * q2 + 2 * r2 + m2) in *.
  replace (((p * q0 + 2 * r0) * q1 + 2 * r1 + m1)
           * ((p * q0 + 2 * r0) * q2 + 2 * r2 + m2))
    with (e1 * e2
          + (e1 * (q0 * q2) + e2 * (q0 * q1) + q0 * q1 * (q0 * q2) * p) * p)
    by (unfold e1, e2; ring).
  rewrite Z.mod_add by lia.
  rewrite (Z.mod_small _ p) by exact Hsmall.
  replace (e1 * e2)
    with (m1 * m2
          + ((r0 * q1 + r1) * e2 + m1 * (r0 * q2 + r2)) * 2)
    by (unfold e1, e2; ring).
  rewrite Z.mod_add by lia.
  destruct Hm1 as [-> | ->], Hm2 as [-> | ->]; reflexivity.
Qed.

End Homomorphic.

Lemma decrypt_sum_of_ciphertexts_witness :
  exists c1 c2,
    run (encrypt 1 (1001 * 200 + 2 * 3) params_4_8) [15; 40] = Some (Ok c1)
    /\ run (encrypt 1 (1001 * 200 + 2 * 3) params_4_8) [7; 20] = Some (Ok c2)
    /\ decrypt (c1 + c2) 1001 params_4_8 = Ok ((1 + 1) mod 2).
Proof.
  apply (decrypt_sum_of_ciphertexts params_4_8 1001 200 3 1 1 40 15 20 7);
    cbn; lia.
Defined.

Lemma decrypt_product_of_ciphertexts_witness :
  exists c1 c2,
    run (encrypt 1 (1001 * 200 + 2 * 3) params_4_8) [2; 1] = Some (Ok c1)
    /\ run (encrypt 1 (1001 * 200 + 2 * 3) params_4_8) [7; 3] = Some (Ok c2)
    /\ decrypt (c1 * c2) 1001 params_4_8 = Ok (1 * 1).
Proof.
  apply (decrypt_product_of_ciphertexts params_4_8 1001 200 3 1 1 1 2 3 7);
    cbn; lia.
Defined.

(** ** Degenerate sizes *)

Lemma zrange_1 : zrange 1 = [0].
Proof. reflexivity. Qed.

(** X13: with [q_size = 0] the multiplier is always 0: the ciphertexts are
    [2 * r + plaintext] for [r] below [2 ^ r_size], the same under every
    public key. *)
Theorem encrypt_zero_q_size
  (rs : N) (params : DGHVParams) (m pk : Z) :
  DGHVParams_init 0 rs = Ok params ->
  outcomes (encrypt m pk params)
  = map (fun r => Ok (2 * r + m)) (zrange (2 ^ Z.of_N rs)).
Proof.
  intros Hinit.
  destruct (DGHVParams_init_inv 0 rs params Hinit) as [Eq Er].
  rewrite outcomes_encrypt by (rewrite ?Eq, ?Er; apply pow2_pos).
  rewrite Eq, Er. change (2 ^ Z.of_N 0) with 1. rewrite zrange_1.
  rewrite <- flat_map_singleton.
  apply flat_map_ext. intros r. cbn [map]. do 2 f_equal. ring.
Qed.

Lemma encrypt_zero_q_size_witness :
  outcomes (encrypt 1 77
              {| q_size := 0; r_size := 1; largest_q := 1; largest_r := 2 |})
  = map (fun r => Ok (2 * r + 1)) (zrange (2 ^ Z.of_N 1)).
Proof. apply (encrypt_zero_q_size 1 _ 1 77). reflexivity. Defined.

(** X14: with [r_size = 0] there is no fresh noise: the ciphertexts are
    [public_key * q + plaintext] for [q] below [2 ^ q_size]. *)
Theorem encrypt_zero_r_size
  (qs : N) (params : DGHVParams) (m pk : Z) :
  DGHVParams_init qs 0 = Ok params ->
  outcomes (encrypt m pk params)
  = map (fun q => Ok (pk * q + m)) (zrange (2 ^ Z.of_N qs)).
Proof.
  intros Hinit.
  destruct (DGHVParams_init_inv qs 0 params Hinit) as [Eq Er].
  rewrite outcomes_encrypt by (rewrite ?Eq, ?Er; apply pow2_pos).
  rewrite Eq, Er. change (2 ^ Z.of_N 0) with 1. rewrite zrange_1.
  cbn [flat_map]. rewrite app_nil_r.
  apply map_ext. intros q. f_equal. ring.
Qed.

Lemma encrypt_zero_r_size_witness :
  outcomes (encrypt 1 77
              {| q_size := 1; r_size := 0; largest_q := 2; largest_r := 1 |})
  = map (fun q => Ok (77 * q + 1)) (zrange (2 ^ Z.of_N 1)).
Proof. apply (encrypt_zero_r_size 1 _ 1 77). reflexivity. Defined.
